(** * Shallow embedding of the plaincloud / SlimLog logging core.

    Three generations of the emission path live in the sources:
    - [Logger::emit] of include/log/logger.h (oldest);
    - [SinkDriver<Logger, SingleThreadedPolicy>] and
      [SinkDriver<Logger, MultiThreadedPolicy>] of the legacy
      [PlainCloud::Log] sink header;
    - [SlimLog::SinkDriver] of the rewritten sink header.
    Sinks and logger nodes are identified by [nat] handles (the
    [shared_ptr] / raw pointer keys of the C++ maps). *)

From Stdlib Require Import String Ascii.
From stdpp Require Import base gmap list strings.


(** ** Severity levels *)

(** [enum class Level { Fatal, Error, Warning, Info, Debug, Trace }]:
    the numeric order is most-critical first. *)
Inductive Level := Fatal | Error | Warning | Info | Debug | Trace.

Definition level_to_nat (l : Level) : nat :=
  match l with
  | Fatal => 0 | Error => 1 | Warning => 2
  | Info => 3 | Debug => 4 | Trace => 5
  end.

(** [a < b] on the scoped enum. *)
Definition level_ltb (a b : Level) : bool := Nat.ltb (level_to_nat a) (level_to_nat b).

(** ** Message producers

    The [T&& callback] argument of [message], resolved by the
    [if constexpr] chain: a callable writing into the buffer, a callable
    returning a message, a void callable, or a plain value.  The format
    arguments [args...] are already applied: the string is what the call
    produces. *)
Inductive Producer :=
  | BufWriter (m : string)   (* invocable with (buffer, args...) *)
  | ValueFn (m : string)     (* invocable with (args...), non-void result *)
  | VoidFn                   (* invocable with (args...), void result *)
  | PlainValue (m : string). (* not invocable: the message itself *)

(** Observable effects of one emission call. *)
Inductive Event :=
  | Invoke                             (* the callback is called *)
  | SinkMessage (sink : nat) (msg : string) (* sink->message(...) *)
  | BufferReset.                       (* buffer.str({}) *)

Definition is_invoke (e : Event) : bool :=
  match e with Invoke => true | _ => false end.

Definition invocations (evs : list Event) : nat := length (List.filter is_invoke evs).

Definition is_reset (e : Event) : bool :=
  match e with BufferReset => true | _ => false end.

Definition resets (evs : list Event) : nat := length (List.filter is_reset evs).

Definition delivered (evs : list Event) : list (nat * string) :=
  omap (fun e => match e with SinkMessage s m => Some (s, m) | _ => None end) evs.

(** ** Rewritten driver: [SlimLog::SinkDriver::message]

    [m_effective_sinks : unordered_map<Sink*, const Logger*>] is visited in
    its iteration order, given here as the list [effs] of
    (sink, owner) pairs.  [level_enabled owner level] is
    [logger->level_enabled(level)] of the owning logger.  The loop state is
    the [evaluated] flag, the local [buffer] and [record.message]. *)
Section Slim.

Variable level_enabled : nat -> Level -> bool.

Fixpoint slim_loop (level : Level) (callback : Producer) (evaluated : bool)
    (buffer : string) (record_message : string) (effs : list (nat * nat))
    : list Event :=
  match effs with
  | [] => []
  | (sink, logger) :: rest =>
      if negb (level_enabled logger level) then
        slim_loop level callback evaluated buffer record_message rest
      else if negb evaluated then
        match callback with
        | BufWriter m =>
            let buffer := String.append buffer m in
            Invoke :: SinkMessage sink buffer
              :: slim_loop level callback true buffer buffer rest
        | ValueFn m =>
            Invoke :: SinkMessage sink m
              :: slim_loop level callback true buffer m rest
        | VoidFn =>
            (* callback(args...); break; *)
            [Invoke]
        | PlainValue m =>
            SinkMessage sink m :: slim_loop level callback true buffer m rest
        end
      else SinkMessage sink record_message
             :: slim_loop level callback evaluated buffer record_message rest
  end.

(** [FormatBufferType buffer;] is a fresh local buffer, the record message
    starts empty and [evaluated] starts false. *)
Definition slim_message (level : Level) (callback : Producer)
    (effective_sinks : gmap nat nat) : list Event :=
  slim_loop level callback false ""%string ""%string (map_to_list effective_sinks).

End Slim.

(** ** Legacy driver: [SinkDriver<Logger, SingleThreadedPolicy>] *)

(** [m_sinks : unordered_map<shared_ptr<Sink>, bool>] *)
Abbreviation SinkMap := (gmap nat bool).

(** [add_sink]: [m_sinks.insert_or_assign(sink, true).second]. *)
Definition add_sink (sinks : SinkMap) (sink : nat) : bool * SinkMap :=
  (match sinks !! sink with None => true | Some _ => false end,
   <[sink := true]> sinks).

(** [remove_sink]: [m_sinks.erase(sink) == 1]. *)
Definition remove_sink (sinks : SinkMap) (sink : nat) : bool * SinkMap :=
  (match sinks !! sink with None => false | Some _ => true end,
   delete sink sinks).

(** [set_sink_enabled]: find, assign the flag, report presence. *)
Definition set_sink_enabled (sinks : SinkMap) (sink : nat) (enabled : bool)
    : bool * SinkMap :=
  match sinks !! sink with
  | Some _ => (true, <[sink := enabled]> sinks)
  | None => (false, sinks)
  end.

(** [sink_enabled]. *)
Definition sink_enabled (sinks : SinkMap) (sink : nat) : bool :=
  match sinks !! sink with Some b => b | None => false end.

(** One step of the constructors' loop: [m_sinks.emplace(sink, true)]
    inserts only when the key is absent. *)
Definition emplace_enabled (sinks : SinkMap) (sink : nat) : SinkMap :=
  match sinks !! sink with Some _ => sinks | None => <[sink := true]> sinks end.

(** [SinkDriver(const std::initializer_list<shared_ptr<Sink>>& sinks)]:
    [for (sink : sinks) m_sinks.emplace(sink, true);] from an empty map.
    The multi-threaded constructor builds its inner single-threaded driver
    ([m_sinks(sinks)]) with it, and the [Logger] constructor of
    include/log/logger.h runs the same loop. *)
Definition ctor_sinks (sinks : list nat) : SinkMap := foldl emplace_enabled ∅ sinks.

(** The loop of the legacy [message]: for every enabled sink the
    callback is run and the sink called, then [buffer.str({})] empties the
    (thread-local, shared between calls) buffer.  Returns the events and
    the buffer left behind. *)
Fixpoint plain_loop (level : Level) (callback : Producer) (buffer : string)
    (sinks : list (nat * bool)) : list Event * string :=
  match sinks with
  | [] => ([], buffer)
  | (sink, enabled) :: rest =>
      if enabled then
        let evs :=
          match callback with
          | BufWriter m => [Invoke; SinkMessage sink (String.append buffer m)]
          | ValueFn m => [Invoke; SinkMessage sink m]
          | VoidFn => [Invoke; SinkMessage sink buffer]
          | PlainValue m => [SinkMessage sink m]
          end in
        let '(evs', buf') := plain_loop level callback ""%string rest in
        (app evs (BufferReset :: evs'), buf')
      else plain_loop level callback buffer rest
  end.

(** [message(buffer, logger, level, callback, location, args...)]:
    [if (logger.m_level < level) return;] then the loop. *)
Definition plain_message (buffer : string) (logger_level level : Level)
    (callback : Producer) (sinks : SinkMap) : list Event * string :=
  if level_ltb logger_level level then ([], buffer)
  else plain_loop level callback buffer (map_to_list sinks).

(** The same legacy loop with the callable as the C++ code has it: an
    object called anew for every enabled sink, with its arguments
    forwarded anew.  Each call may read and update state [St] held by the
    callable or by the arguments (a call counter, an argument moved from
    by the first call), so two calls can yield different text. *)
Inductive SProducer (St : Type) :=
  | SBufWriter (call : St -> string * St)  (* callback(buffer, args...) appends the text *)
  | SValueFn (call : St -> string * St)    (* callback(args...) returns the text *)
  | SVoidFn (call : St -> St)              (* callback(args...) returns void *)
  | SPlainValue (m : string).              (* not invocable: the message itself *)

Arguments SBufWriter {St} call.
Arguments SValueFn {St} call.
Arguments SVoidFn {St} call.
Arguments SPlainValue {St} m.

Definition scallable {St} (p : SProducer St) : bool :=
  match p with SPlainValue _ => false | _ => true end.

Fixpoint plain_loop_st {St} (level : Level) (callback : SProducer St) (st : St)
    (buffer : string) (sinks : list (nat * bool)) : list Event * string * St :=
  match sinks with
  | [] => ([], buffer, st)
  | (sink, enabled) :: rest =>
      if enabled then
        let '(evs, st') :=
          match callback with
          | SBufWriter f =>
              let '(m, st') := f st in
              ([Invoke; SinkMessage sink (String.append buffer m)], st')
          | SValueFn f =>
              let '(m, st') := f st in ([Invoke; SinkMessage sink m], st')
          | SVoidFn f => ([Invoke; SinkMessage sink buffer], f st)
          | SPlainValue m => ([SinkMessage sink m], st)
          end in
        let '(evs', buf', st'') := plain_loop_st level callback st' ""%string rest in
        (app evs (BufferReset :: evs'), buf', st'')
      else plain_loop_st level callback st buffer rest
  end.

(** [message(buffer, logger, level, callback, location, args...)] with a
    stateful callable; returns the events, the buffer and the state. *)
Definition plain_message_st {St} (buffer : string) (logger_level level : Level)
    (callback : SProducer St) (st : St) (sinks : SinkMap) : list Event * string * St :=
  if level_ltb logger_level level then ([], buffer, st)
  else plain_loop_st level callback st buffer (map_to_list sinks).

(** An event with the message text blanked out. *)
Definition erase_msg (e : Event) : Event :=
  match e with SinkMessage s _ => SinkMessage s ""%string | _ => e end.

(** ** Oldest emission: [Logger::emit] of include/log/logger.h

    [for (sink : m_sinks) if (m_level >= level)
       sink.first->emit(level, callback(args...), location);] *)
Fixpoint logger_emit_loop (m_level level : Level) (m : string)
    (sinks : list (nat * bool)) : list Event :=
  match sinks with
  | [] => []
  | (sink, _) :: rest =>
      if negb (level_ltb m_level level) then
        Invoke :: SinkMessage sink m :: logger_emit_loop m_level level m rest
      else logger_emit_loop m_level level m rest
  end.

Definition logger_emit (m_level level : Level) (m : string) (sinks : SinkMap)
    : list Event :=
  logger_emit_loop m_level level m (map_to_list sinks).

(** The [Logger] class of include/log/logger.h around [emit]. *)
Module PlainLogger.

(** [m_sinks], [m_name], [m_level]. *)
Record Logger := {
  m_sinks : SinkMap;
  m_name : string;
  m_level : Level
}.

(** [explicit Logger(name, level = Info, sinks = {})]. *)
Definition make (name : string) (level : Level) (sinks : list nat) : Logger :=
  {| m_sinks := ctor_sinks sinks; m_name := name; m_level := level |}.

(** [add_sink]: [m_sinks.insert_or_assign(sink, false).second]. *)
Definition add_sink (lg : Logger) (sink : nat) : bool * Logger :=
  (match m_sinks lg !! sink with None => true | Some _ => false end,
   {| m_sinks := <[sink := false]> (m_sinks lg); m_name := m_name lg;
      m_level := m_level lg |}).

(** [remove_sink]: [m_sinks.erase(sink) == 1]. *)
Definition remove_sink (lg : Logger) (sink : nat) : bool * Logger :=
  (match m_sinks lg !! sink with None => false | Some _ => true end,
   {| m_sinks := delete sink (m_sinks lg); m_name := m_name lg;
      m_level := m_level lg |}).

(** [set_level]: [m_level = level]. *)
Definition set_level (lg : Logger) (level : Level) : Logger :=
  {| m_sinks := m_sinks lg; m_name := m_name lg; m_level := level |}.

(** [emit(level, callback, location, args...)]; the overloads taking a
    plain message or a [Format] wrap it in a callback yielding [m]. *)
Definition emit (lg : Logger) (level : Level) (m : string) : list Event :=
  logger_emit (m_level lg) level m (m_sinks lg).

(** [info(fmt, ...)]: [emit(Level::Info, fmt, ...)]. *)
Definition info (lg : Logger) (m : string) : list Event := emit lg Info m.

End PlainLogger.

(** ** Reading aids for the statements *)

(** The sinks of the effective set whose owner admits [level], in
    iteration order. *)
Definition admissible (level_enabled : nat -> Level -> bool) (level : Level)
    (effs : list (nat * nat)) : list nat :=
  map fst (List.filter (fun '(_, o) => level_enabled o level) effs).

(** Enabled sinks of a legacy sink map, in iteration order. *)
Definition enabled_sinks (sinks : list (nat * bool)) : list nat :=
  map fst (List.filter snd sinks).

(** [!l.empty()]. *)
Definition nonempty {A} (l : list A) : bool :=
  match l with [] => false | _ :: _ => true end.

(** Whether a producer is a callable (the [Invoke] shapes). *)
Definition callable (p : Producer) : bool :=
  match p with PlainValue _ => false | _ => true end.

(** The message a producer yields when the buffer holds [buf]. *)
Definition produced_from (buf : string) (p : Producer) : string :=
  match p with
  | BufWriter m => String.append buf m
  | ValueFn m | PlainValue m => m
  | VoidFn => buf
  end.

(** One evaluation of the producer at the head, then the same message for
    every sink in [ss] (none for a void callable). *)
Definition emission_events (buf : string) (cb : Producer) (ss : list nat)
    : list Event :=
  match ss with
  | [] => []
  | _ :: _ =>
      (if callable cb then [Invoke] else [])
        ++ match cb with
           | VoidFn => []
           | _ => map (fun s => SinkMessage s (produced_from buf cb)) ss
           end
  end.

(** "L is at least as critical as T" in Fatal < Error < ... < Trace. *)
Definition at_least_as_critical (l t : Level) : bool :=
  Nat.leb (level_to_nat l) (level_to_nat t).

(** ** Reference sink: [OStreamSink] *)

(** [Record<CharType, StringType>]: the fields a pattern reads. *)
Record LogRecord := {
  rec_level : Level;
  rec_file : string;
  rec_function : string;
  rec_line : nat;
  rec_category : string;
  rec_thread_id : nat;
  rec_message : string
}.

(** What reaches the [std::basic_ostream] (its stream buffer). *)
Inductive StreamEvent :=
  | StreamWrite (chars : string)  (* m_ostream.write(ptr, count) *)
  | StreamFlush.                  (* m_ostream.flush() *)

Definition newline : string := String (Ascii.ascii_of_nat 10) EmptyString.

Section OStream.

(** The sink's compiled [Pattern]: its rendering of a record. *)
Variable render : LogRecord -> string.

(** Modelled from the spec: [Sink::format] / [Pattern::format] (not in the
    sources) renders the record into [result]; the rendering is appended
    after what the buffer already holds. *)
Definition sink_format (result : string) (record : LogRecord) : string :=
  String.append result (render record).

(** [OStreamSink::message(buffer, record)]:
    [orig_size = buffer.size(); format(buffer, record); push_back('\n');
     write(begin + orig_size, size - orig_size); resize(orig_size)]. *)
Definition ostream_message (buffer : string) (record : LogRecord)
    (stream : list StreamEvent) : string * list StreamEvent :=
  let orig_size := String.length buffer in
  let buffer := sink_format buffer record in
  let buffer := String.append buffer newline in
  let stream := stream ++ [StreamWrite
                  (String.substring orig_size (String.length buffer - orig_size) buffer)] in
  let buffer := String.substring 0 orig_size buffer in
  (buffer, stream).

(** [OStreamSink::flush()]: [m_ostream.flush()]. *)
Definition ostream_flush (stream : list StreamEvent) : list StreamEvent :=
  stream ++ [StreamFlush].

End OStream.

(** ** Legacy multi-threaded driver: [SinkDriver<Logger, MultiThreadedPolicy>]

    Threads run [message] (under [ReadLock]) with a buffer-writing callback
    on one enabled sink, or [set_sink_enabled] (under [WriteLock]).  The
    buffer passed to the inner single-threaded driver is [buffer()], one
    [static FormatBuffer] for the whole process.  Each constructor of
    [Pc] is a program point; a step runs one thread from one point to the
    next. *)
Inductive Pc :=
  | EStart (m : string)  (* ReadLock lock(m_mutex); *)
  | ELocked (m : string) (* if (sink.second) callback(buffer, args...); *)
  | EFilled              (* sink.first->message(buffer, ...); *)
  | ESunk                (* buffer.str({}); *)
  | ERelease             (* ~ReadLock *)
  | TStart (b : bool)    (* WriteLock lock(m_mutex); *)
  | TLocked (b : bool)   (* itr->second = enabled; *)
  | TRelease             (* ~WriteLock *)
  | Done.

Record MTState := {
  readers : nat;             (* shared owners of m_mutex *)
  writer : bool;             (* exclusive owner of m_mutex *)
  shared_buffer : string;    (* the static buffer() *)
  sink_on : bool;            (* m_sinks[sink] *)
  written : list string;     (* records written by the sink *)
  threads : list Pc
}.

Definition set_pc (s : MTState) (k : nat) (pc : Pc) : MTState :=
  {| readers := readers s; writer := writer s; shared_buffer := shared_buffer s;
     sink_on := sink_on s; written := written s; threads := <[k := pc]> (threads s) |}.

(** One step of thread [k]; [None] when it is blocked or finished. *)
Definition mt_step (k : nat) (s : MTState) : option MTState :=
  match threads s !! k with
  | Some (EStart m) =>
      if writer s then None
      else Some (set_pc {| readers := S (readers s); writer := writer s;
                           shared_buffer := shared_buffer s; sink_on := sink_on s;
                           written := written s; threads := threads s |} k (ELocked m))
  | Some (ELocked m) =>
      if sink_on s
      then Some (set_pc {| readers := readers s; writer := writer s;
                           shared_buffer := String.append (shared_buffer s) m;
                           sink_on := sink_on s; written := written s;
                           threads := threads s |} k EFilled)
      else Some (set_pc s k ERelease)
  | Some EFilled =>
      Some (set_pc {| readers := readers s; writer := writer s;
                      shared_buffer := shared_buffer s; sink_on := sink_on s;
                      written := written s ++ [shared_buffer s];
                      threads := threads s |} k ESunk)
  | Some ESunk =>
      Some (set_pc {| readers := readers s; writer := writer s;
                      shared_buffer := ""%string; sink_on := sink_on s;
                      written := written s; threads := threads s |} k ERelease)
  | Some ERelease =>
      Some (set_pc {| readers := pred (readers s); writer := writer s;
                      shared_buffer := shared_buffer s; sink_on := sink_on s;
                      written := written s; threads := threads s |} k Done)
  | Some (TStart b) =>
      if writer s || negb (Nat.eqb (readers s) 0) then None
      else Some (set_pc {| readers := readers s; writer := true;
                           shared_buffer := shared_buffer s; sink_on := sink_on s;
                           written := written s; threads := threads s |} k (TLocked b))
  | Some (TLocked b) =>
      Some (set_pc {| readers := readers s; writer := writer s;
                      shared_buffer := shared_buffer s; sink_on := b;
                      written := written s; threads := threads s |} k TRelease)
  | Some TRelease =>
      Some (set_pc {| readers := readers s; writer := false;
                      shared_buffer := shared_buffer s; sink_on := sink_on s;
                      written := written s; threads := threads s |} k Done)
  | Some Done | None => None
  end.

(** A schedule: the thread chosen at each step (a blocked choice stalls). *)
Fixpoint mt_run (sched : list nat) (s : MTState) : MTState :=
  match sched with
  | [] => s
  | k :: ks => mt_run ks (match mt_step k s with Some s' => s' | None => s end)
  end.

Definition mt_init (ts : list Pc) : MTState :=
  {| readers := 0; writer := false; shared_buffer := ""%string; sink_on := true;
     written := []; threads := ts |}.

(** Program points between taking and dropping the [ReadLock] of
    [message], and the [WriteLock] of [set_sink_enabled]. *)
Definition in_read (pc : Pc) : bool :=
  match pc with ELocked _ | EFilled | ESunk | ERelease => true | _ => false end.

Definition in_write (pc : Pc) : bool :=
  match pc with TLocked _ | TRelease => true | _ => false end.

(** A thread that has not started, or has finished. *)
Definition at_start (pc : Pc) : bool :=
  match pc with EStart _ | TStart _ | Done => true | _ => false end.

Definition count_pc (f : Pc -> bool) (ts : list Pc) : nat := length (List.filter f ts).

(** The locking invariant of the multi-threaded driver. *)
Definition mt_inv (s : MTState) : Prop :=
  readers s = count_pc in_read (threads s)
  /\ count_pc in_write (threads s) = (if writer s then 1 else 0)
  /\ (writer s = true -> readers s = 0).

(** ** Rewritten driver: the logger tree and its effective sinks

    Nodes live in an arena [gmap nat Node] addressed by handles; a handle
    is never reused ([next_id] only grows), and a node's parent is fixed
    when the node is created, so a parent's handle is below its child's. *)

Record Node := {
  node_parent : option nat;            (* m_parent *)
  node_children : list nat;            (* m_children *)
  node_sinks : gmap nat bool;          (* m_sinks *)
  node_eff : gmap nat nat              (* m_effective_sinks: sink -> owner *)
}.

Abbreviation Tree := (gmap nat Node).

Definition with_eff (nd : Node) (e : gmap nat nat) : Node :=
  {| node_parent := node_parent nd; node_children := node_children nd;
     node_sinks := node_sinks nd; node_eff := e |}.

Definition with_sinks (nd : Node) (s : gmap nat bool) : Node :=
  {| node_parent := node_parent nd; node_children := node_children nd;
     node_sinks := s; node_eff := node_eff nd |}.

Definition with_children (nd : Node) (cs : list nat) : Node :=
  {| node_parent := node_parent nd; node_children := cs;
     node_sinks := node_sinks nd; node_eff := node_eff nd |}.

(** The parent's effective set, empty for a root. *)
Definition parent_eff (t : Tree) (p : option nat) : gmap nat nat :=
  match p with
  | Some p => match t !! p with Some pn => node_eff pn | None => ∅ end
  | None => ∅
  end.

(** Own enabled sinks, each mapped to the node itself. *)
Definition own_effective (i : nat) (sinks : gmap nat bool) : gmap nat nat :=
  (fun _ => i) <$> filter (fun kv : nat * bool => kv.2 = true) sinks.

(** The recomputed set: own entries overlaid on the parent's set
    ([∪] on maps keeps the left entry on a shared key). *)
Definition compute_eff (t : Tree) (i : nat) (nd : Node) : gmap nat nat :=
  own_effective i (node_sinks nd) ∪ parent_eff t (node_parent nd).

(** Modelled from the spec: [SinkDriver::update_effective_sinks] (declared
    in the sources, its body is not there).  Take the parent's set, overlay
    the node's own enabled sinks, store the result and, when it differs
    from the cached one, recurse into every child.  [fuel] bounds the
    depth of the recursion. *)
Fixpoint update_effective_sinks (fuel : nat) (i : nat) (t : Tree) : Tree :=
  match fuel with
  | 0 => t
  | S f =>
      match t !! i with
      | None => t
      | Some nd =>
          let fresh := compute_eff t i nd in
          if decide (fresh = node_eff nd) then t
          else foldl (fun acc c => update_effective_sinks f c acc)
                     (<[i := with_eff nd fresh]> t) (node_children nd)
      end
  end.

Record LogTree := { nodes : Tree; next_id : nat }.

(** Structural operations on the tree. *)
Inductive Op :=
  | NewNode (parent : option nat)                       (* SinkDriver(logger, parent) *)
  | AddSink (node sink : nat)                           (* add_sink *)
  | RemoveSink (node sink : nat)                        (* remove_sink *)
  | SetSinkEnabled (node sink : nat) (enabled : bool).  (* set_sink_enabled *)

Definition empty_node (parent : option nat) : Node :=
  {| node_parent := parent; node_children := []; node_sinks := ∅; node_eff := ∅ |}.

(** Modelled from the spec: the constructor, [add_sink], [remove_sink] and
    [set_sink_enabled] of the rewritten driver mutate the node locally
    (the map operations of the legacy driver) and then recompute its
    effective set; a new node is attached to its parent at construction. *)
Definition exec (st : LogTree) (op : Op) : LogTree :=
  let N := next_id st in
  let t := nodes st in
  let local i nd sinks' :=
    {| nodes := update_effective_sinks (S N) i (<[i := with_sinks nd sinks']> t);
       next_id := N |} in
  match op with
  | NewNode None =>
      {| nodes := update_effective_sinks (S (S N)) N (<[N := empty_node None]> t);
         next_id := S N |}
  | NewNode (Some p) =>
      match t !! p with
      | None => st
      | Some pn =>
          {| nodes := update_effective_sinks (S (S N)) N
                        (<[N := empty_node (Some p)]>
                           (<[p := with_children pn (N :: node_children pn)]> t));
             next_id := S N |}
      end
  | AddSink i s =>
      match t !! i with
      | None => st
      | Some nd => local i nd (snd (add_sink (node_sinks nd) s))
      end
  | RemoveSink i s =>
      match t !! i with
      | None => st
      | Some nd =>
          let '(removed, sinks') := remove_sink (node_sinks nd) s in
          if removed then local i nd sinks' else st
      end
  | SetSinkEnabled i s b =>
      match t !! i with
      | None => st
      | Some nd =>
          let '(found, sinks') := set_sink_enabled (node_sinks nd) s b in
          if found then local i nd sinks' else st
      end
  end.

Definition empty_tree : LogTree := {| nodes := ∅; next_id := 0 |}.

(** The tree reached by running [ops] in order from an empty arena. *)
Definition run_ops (ops : list Op) : LogTree := foldl exec empty_tree ops.

(** A node's cached set is own-enabled overlaid on its parent's set. *)
Definition consistent (t : Tree) (j : nat) : Prop :=
  match t !! j with
  | Some nd => node_eff nd = compute_eff t j nd
  | None => True
  end.

(** Topology and local sinks, everything but the caches. *)
Definition shape (nd : Node) : option nat * list nat * gmap nat bool :=
  (node_parent nd, node_children nd, node_sinks nd).

(** Two arenas with the same nodes, topology and local sinks. *)
Definition same_shape (t t' : Tree) : Prop :=
  forall j, shape <$> t !! j = shape <$> t' !! j.

(** Well-formed arena below the handle bound [N]: parents come first and
    exist, and the children lists match the parent links. *)
Definition Wf (t : Tree) (N : nat) : Prop :=
  (forall i nd, t !! i = Some nd -> i < N)
  /\ (forall i nd p, t !! i = Some nd -> node_parent nd = Some p ->
        p < i /\ is_Some (t !! p))
  /\ (forall i nd c, t !! i = Some nd -> c ∈ node_children nd ->
        exists cn, t !! c = Some cn /\ node_parent cn = Some i)
  /\ (forall c cn i, t !! c = Some cn -> node_parent cn = Some i ->
        exists nd, t !! i = Some nd /\ c ∈ node_children nd).

(** [j] lies in the subtree rooted at [i]. *)
Inductive desc (t : Tree) (i : nat) : nat -> Prop :=
  | desc_refl : desc t i i
  | desc_step p j nd : desc t i p -> t !! j = Some nd -> node_parent nd = Some p ->
      desc t i j.

(** Two arenas with the same nodes and the same parent / children links. *)
Definition same_links (t t' : Tree) : Prop :=
  forall j, (fun nd => (node_parent nd, node_children nd)) <$> t !! j
          = (fun nd => (node_parent nd, node_children nd)) <$> t' !! j.

(** Every node's cache agrees with own-enabled overlaid on the parent's. *)
Definition all_consistent (t : Tree) : Prop := forall j, consistent t j.

(** ** Proofs *)

Section SlimProofs.

Variable level_enabled : nat -> Level -> bool.

Lemma invocations_cons e l :
  invocations (e :: l) = (if is_invoke e then 1 else 0) + invocations l.
Proof. unfold invocations; simpl. by destruct (is_invoke e). Qed.

Lemma slim_loop_evaluated cb lvl buf rm effs :
  slim_loop level_enabled lvl cb true buf rm effs
  = map (fun s => SinkMessage s rm) (admissible level_enabled lvl effs).
Proof.
  induction effs as [|[s o] effs IH]; simpl; [done|].
  unfold admissible in *; simpl.
  destruct (level_enabled o lvl); simpl; by rewrite IH.
Qed.

Lemma delivered_app l1 l2 : delivered (l1 ++ l2) = delivered l1 ++ delivered l2.
Proof. unfold delivered. apply omap_app. Qed.

Lemma delivered_map_msg rm (ss : list nat) :
  delivered (map (fun s => SinkMessage s rm) ss) = map (fun s => (s, rm)) ss.
Proof. induction ss; simpl; [done|]. unfold delivered in *; simpl; by f_equal. Qed.

Lemma invocations_map_msg rm (ss : list nat) :
  invocations (map (fun s => SinkMessage s rm) ss) = 0.
Proof. induction ss; simpl; [done|]. by unfold invocations in *; simpl. Qed.

Lemma slim_loop_events cb lvl buf rm effs :
  slim_loop level_enabled lvl cb false buf rm effs
  = emission_events buf cb (admissible level_enabled lvl effs).
Proof.
  induction effs as [|[s o] effs IH]; simpl; [done|].
  unfold admissible in *; simpl.
  destruct (level_enabled o lvl); simpl; [|exact IH].
  destruct cb; simpl; rewrite ?slim_loop_evaluated; done.
Qed.

End SlimProofs.

Lemma plain_loop_invocations cb lvl buf (l : list (nat * bool)) :
  invocations (fst (plain_loop lvl cb buf l))
  = if callable cb then length (enabled_sinks l) else 0.
Proof.
  revert buf; induction l as [|[s b] l IH]; intros buf; simpl; [by destruct cb|].
  destruct b; simpl; [|apply IH].
  specialize (IH ""%string).
  destruct (plain_loop lvl cb "" l) as [evs' buf'] eqn:E; simpl in *.
  unfold enabled_sinks in *.
  destruct cb; simpl in *; rewrite ?invocations_cons; simpl; lia.
Qed.

Lemma level_ltb_critical t l : level_ltb t l = negb (at_least_as_critical l t).
Proof. unfold level_ltb, at_least_as_critical. apply Nat.ltb_antisym. Qed.

Lemma logger_emit_loop_admitted t l m (sinks : list (nat * bool)) :
  logger_emit_loop t l m sinks
  = if at_least_as_critical l t
    then flat_map (fun '(s, _) => [Invoke; SinkMessage s m]) sinks else [].
Proof.
  induction sinks as [|[s b] sinks IH]; simpl; [by destruct (at_least_as_critical l t)|].
  rewrite level_ltb_critical, IH. by destruct (at_least_as_critical l t).
Qed.

(** ** Claims on emission *)

(** C1 (amended).  In the rewritten [SlimLog::SinkDriver::message] the
    producer is evaluated once, at the first sink whose owner admits the
    level, and every admissible sink then receives the same message; a void
    callable is invoked once and no sink receives a record.  The legacy
    single-threaded driver instead invokes a callable producer once per
    enabled sink of an admitted call. *)
Theorem C1_producer_evaluations (level_enabled : nat -> Level -> bool)
    (level : Level) (cb : Producer) (effective_sinks : gmap nat nat)
    (buf : string) (logger_level : Level) (sinks : SinkMap) :
  slim_message level_enabled level cb effective_sinks
  = emission_events ""%string cb
      (admissible level_enabled level (map_to_list effective_sinks))
  /\ invocations (fst (plain_message buf logger_level level cb sinks))
     = if at_least_as_critical level logger_level && callable cb
       then length (enabled_sinks (map_to_list sinks)) else 0.
Proof.
  split.
  - apply slim_loop_events.
  - unfold plain_message. rewrite level_ltb_critical.
    destruct (at_least_as_critical level logger_level); simpl; [|done].
    apply plain_loop_invocations.
Qed.

(** C1 counterexample: with two enabled sinks, the legacy driver invokes a
    value-returning producer twice in one call. *)
Lemma C1_legacy_invokes_per_sink :
  invocations (fst (plain_message ""%string Info Info (ValueFn "up")
                      (<[1:=true]> (<[2:=true]> ∅)))) = 2.
Proof. vm_compute. reflexivity. Qed.

(** C2.  A legacy driver call (and an oldest [Logger::emit] call) at level
    [level] on a logger of threshold [logger_level] goes on to the sink
    loop iff [level] is at least as critical as the threshold; otherwise
    nothing happens: no producer call, no sink call, buffer untouched. *)
Theorem C2_level_gate (buf : string) (logger_level level : Level)
    (cb : Producer) (sinks : SinkMap) (m : string) :
  plain_message buf logger_level level cb sinks
  = (if at_least_as_critical level logger_level
     then plain_loop level cb buf (map_to_list sinks) else ([], buf))
  /\ logger_emit logger_level level m sinks
  = (if at_least_as_critical level logger_level
     then flat_map (fun '(s, _) => [Invoke; SinkMessage s m]) (map_to_list sinks)
     else []).
Proof.
  split.
  - unfold plain_message. rewrite level_ltb_critical.
    by destruct (at_least_as_critical level logger_level).
  - apply logger_emit_loop_admitted.
Qed.

(** C4.  In the rewritten driver, for any non-void producer, the sinks that
    receive the record are exactly those effective-set entries whose
    recorded owner admits the level, in iteration order; the call-site
    node plays no part. *)
Theorem C4_owner_gates_sink (level_enabled : nat -> Level -> bool)
    (level : Level) (cb : Producer) (effective_sinks : gmap nat nat)
    (Hcb : cb <> VoidFn) :
  map fst (delivered (slim_message level_enabled level cb effective_sinks))
  = map fst (List.filter (fun '(_, owner) => level_enabled owner level)
                         (map_to_list effective_sinks)).
Proof.
  unfold slim_message. rewrite slim_loop_events.
  fold (admissible level_enabled level (map_to_list effective_sinks)).
  destruct (admissible level_enabled level (map_to_list effective_sinks)) as [|s ss];
    [done|].
  destruct cb; try congruence; simpl; unfold delivered; simpl;
    rewrite ?omap_app; simpl; f_equal;
    induction ss; simpl; by f_equal.
Qed.

(** Witness of C4: sink 10 is owned by node 1 (threshold Warning) while
    the descendant node 2 that logs admits Trace; a Debug record is
    withheld from sink 10 and an Error record reaches it. *)
Lemma C4_owner_gates_sink_witness :
  ValueFn "m" <> VoidFn
  /\ map fst (delivered (slim_message
        (fun o l => at_least_as_critical l (if Nat.eqb o 1 then Warning else Trace))
        Debug (ValueFn "m") (<[10:=1]> ∅))) = []
  /\ map fst (delivered (slim_message
        (fun o l => at_least_as_critical l (if Nat.eqb o 1 then Warning else Trace))
        Error (ValueFn "m") (<[10:=1]> ∅))) = [10].
Proof.
  split; [discriminate|]. split.
  - rewrite (C4_owner_gates_sink _ Debug (ValueFn "m") (<[10:=1]> ∅));
      [vm_compute; reflexivity | discriminate].
  - rewrite (C4_owner_gates_sink _ Error (ValueFn "m") (<[10:=1]> ∅));
      [vm_compute; reflexivity | discriminate].
Defined.

(** The event shape of the stateful legacy loop: per enabled sink, one
    call of a callable producer, one sink call, one buffer reset. *)
Lemma plain_loop_st_shape {St} lvl (cb : SProducer St) (l : list (nat * bool)) :
  forall st buf,
  map erase_msg (fst (fst (plain_loop_st lvl cb st buf l)))
  = flat_map (fun s => (if scallable cb then [Invoke] else [])
                         ++ [SinkMessage s ""%string; BufferReset])
             (enabled_sinks l).
Proof.
  induction l as [|[s b] l IH]; intros st buf; simpl; [done|].
  destruct b; simpl; [|apply IH].
  change (enabled_sinks ((s, true) :: l)) with (s :: enabled_sinks l).
  destruct cb as [f|f|f|m]; simpl;
    [destruct (f st) as [m st'] | destruct (f st) as [m st'] | set (st' := f st)
    | set (st' := st)]; simpl;
    pose proof (IH st' ""%string) as H;
    destruct (plain_loop_st lvl _ st' ""%string l) as [[evs' buf'] st''];
    simpl in *; rewrite H; reflexivity.
Qed.



(** C10.  In the rewritten driver a void callable that does not take the
    buffer is invoked once if some sink is admissible, and the loop stops
    there: no sink receives a record. *)
Theorem C10_void_callable_breaks (level_enabled : nat -> Level -> bool)
    (level : Level) (effective_sinks : gmap nat nat) :
  slim_message level_enabled level VoidFn effective_sinks
  = (if nonempty (admissible level_enabled level (map_to_list effective_sinks))
     then [Invoke] else [])
  /\ delivered (slim_message level_enabled level VoidFn effective_sinks) = [].
Proof.
  unfold slim_message. rewrite slim_loop_events.
  destruct (admissible level_enabled level (map_to_list effective_sinks)); by split.
Qed.

(** ** Claims on the sink map *)

(** C7.  [set_sink_enabled] returns false and leaves the map unchanged for
    an unknown sink; for a known one it stores the flag, touches no other
    entry and returns true.  The result is a plain pair: no error path. *)
Theorem C7_set_sink_enabled_result (sinks : SinkMap) (sink : nat) (enabled : bool) :
  let '(found, sinks') := set_sink_enabled sinks sink enabled in
  (sinks !! sink = None /\ found = false /\ sinks' = sinks)
  \/ (is_Some (sinks !! sink) /\ found = true
      /\ sink_enabled sinks' sink = enabled
      /\ sinks' !! sink = Some enabled
      /\ forall other, other <> sink -> sinks' !! other = sinks !! other).
Proof.
  unfold set_sink_enabled.
  destruct (sinks !! sink) eqn:E.
  - right. split; [by eexists|]. split; [done|].
    unfold sink_enabled. rewrite lookup_insert_eq.
    split; [done|]. split; [done|].
    intros other Hne. by rewrite lookup_insert_ne by congruence.
  - left. done.
Qed.

(** C9.  For every sink already present, [add_sink] returns false and
    stores the enabled flag true, leaving the other entries alone; so a
    sink disabled by [set_sink_enabled] is enabled after [add_sink]. *)
Theorem C9_readd_reenables (sinks : SinkMap) (sink : nat)
    (Hknown : is_Some (sinks !! sink)) :
  add_sink sinks sink = (false, <[sink := true]> sinks)
  /\ sink_enabled (snd (add_sink sinks sink)) sink = true
  /\ (forall other, other <> sink -> snd (add_sink sinks sink) !! other = sinks !! other)
  /\ (let sinks1 := snd (set_sink_enabled sinks sink false) in
      sink_enabled sinks1 sink = false
      /\ add_sink sinks1 sink = (false, <[sink := true]> sinks1)
      /\ sink_enabled (snd (add_sink sinks1 sink)) sink = true).
Proof.
  destruct Hknown as [b Hb].
  unfold set_sink_enabled, add_sink, sink_enabled; simpl.
  rewrite Hb; simpl. rewrite !lookup_insert_eq.
  split; [done|]. split; [done|]. split.
  - intros other Hne. by rewrite lookup_insert_ne by congruence.
  - by rewrite ?lookup_insert_eq.
Qed.

(** Witness of C9 on a map where sink 4 is present and enabled and sink 6
    present and disabled. *)
Lemma C9_readd_reenables_witness :
  is_Some ((<[4:=true]> (<[6:=false]> ∅) : SinkMap) !! 4)
  /\ add_sink (<[4:=true]> (<[6:=false]> ∅)) 4 = (false, <[4:=true]> (<[4:=true]> (<[6:=false]> ∅)))
  /\ sink_enabled (snd (add_sink (snd (set_sink_enabled (<[4:=true]> (<[6:=false]> ∅)) 4 false)) 4)) 4
     = true.
Proof.
  assert (H : is_Some ((<[4:=true]> (<[6:=false]> ∅) : SinkMap) !! 4))
    by (vm_compute; eexists; reflexivity).
  destruct (C9_readd_reenables (<[4:=true]> (<[6:=false]> ∅)) 4 H) as (Ha & _ & _ & _ & _ & Hb).
  split; [exact H|]. split; [exact Ha|exact Hb].
Defined.

(** ** Claims on the reference sink *)

(** stdpp makes [String.append] [simpl never]; its two equations. *)
Lemma append_nil (b : string) : String.append EmptyString b = b.
Proof. reflexivity. Qed.

Lemma append_cons c (a b : string) :
  String.append (String c a) b = String c (String.append a b).
Proof. reflexivity. Qed.

Lemma string_append_assoc (a b c : string) :
  String.append (String.append a b) c = String.append a (String.append b c).
Proof. induction a as [|x a IH]; [done|]. by rewrite !append_cons, IH. Qed.

Lemma substring_whole (b : string) : String.substring 0 (String.length b) b = b.
Proof. induction b as [|c b IH]; simpl; [done|]. by rewrite IH. Qed.

Lemma substring_append_suffix (a b : string) :
  String.substring (String.length a) (String.length (String.append a b) - String.length a)
    (String.append a b) = b.
Proof.
  induction a as [|c a IH].
  - rewrite append_nil; simpl. rewrite Nat.sub_0_r. apply substring_whole.
  - rewrite append_cons. exact IH.
Qed.

Lemma substring_append_prefix (a b : string) :
  String.substring 0 (String.length a) (String.append a b) = a.
Proof.
  induction a as [|c a IH]; [by destruct b|].
  rewrite append_cons; simpl. by rewrite IH.
Qed.

(** C8.  [OStreamSink::message] writes to the stream exactly the
    rendering of the record followed by one newline, and leaves the buffer
    as it was before the call; [OStreamSink::flush] forwards one flush to
    the stream. *)
Theorem C8_ostream_sink (render : LogRecord -> string) (buffer : string)
    (record : LogRecord) (stream : list StreamEvent) :
  ostream_message render buffer record stream
  = (buffer, stream ++ [StreamWrite (String.append (render record) newline)])
  /\ ostream_flush stream = stream ++ [StreamFlush].
Proof.
  split; [|done].
  unfold ostream_message, sink_format.
  rewrite string_append_assoc.
  rewrite substring_append_suffix, substring_append_prefix. done.
Qed.

(** ** Claims on the multi-threaded driver *)

(** C6 (failing run).  Two emitters writing "a" and "b" both hold the shared
    [ReadLock] at once and fill the single static buffer in turn; the first
    sink call then writes the record "ab", which mixes both messages. *)
Theorem C6_shared_buffer_interleaves :
  written (mt_run [0; 1; 0; 1; 0] (mt_init [EStart "a"; EStart "b"])) = ["ab"%string]
  /\ readers (mt_run [0; 1] (mt_init [EStart "a"; EStart "b"])) = 2.
Proof. split; vm_compute; reflexivity. Qed.

(** ** The logger tree *)

Section TreeProofs.

Lemma shape_lookup (t t' : Tree) j nd :
  same_shape t t' -> t !! j = Some nd ->
  exists nd', t' !! j = Some nd' /\ node_parent nd' = node_parent nd
              /\ node_children nd' = node_children nd /\ node_sinks nd' = node_sinks nd.
Proof.
  intros Hs Hj. specialize (Hs j). rewrite Hj in Hs.
  destruct (t' !! j) as [nd'|] eqn:E; [|done].
  simpl in Hs. injection Hs as Hp Hc Hk. by exists nd'.
Qed.

Lemma same_shape_refl t : same_shape t t.
Proof. done. Qed.

Lemma same_shape_sym t t' : same_shape t t' -> same_shape t' t.
Proof. intros H j. by rewrite H. Qed.

Lemma same_shape_trans t1 t2 t3 :
  same_shape t1 t2 -> same_shape t2 t3 -> same_shape t1 t3.
Proof. intros H1 H2 j. by rewrite H1, H2. Qed.

Lemma same_shape_with_eff (t : Tree) i nd e :
  t !! i = Some nd -> same_shape t (<[i := with_eff nd e]> t).
Proof.
  intros Hi j. destruct (decide (j = i)) as [->|Hne].
  - by rewrite lookup_insert_eq, Hi.
  - by rewrite lookup_insert_ne by congruence.
Qed.

Lemma Wf_same_shape t t' N : Wf t N -> same_shape t t' -> Wf t' N.
Proof.
  intros (Ha & Hb & Hc & Hd) Hs. pose proof (same_shape_sym _ _ Hs) as Hs'.
  split; [|split; [|split]].
  - intros i nd Hi. destruct (shape_lookup _ _ _ _ Hs' Hi) as (nd0 & H0 & _). eauto.
  - intros i nd p Hi Hp.
    destruct (shape_lookup _ _ _ _ Hs' Hi) as (nd0 & H0 & Hp0 & _).
    rewrite Hp in Hp0. destruct (Hb _ _ _ H0 Hp0) as [Hlt [pn Hpn]].
    split; [done|]. destruct (shape_lookup _ _ _ _ Hs Hpn) as (pn' & ? & _). by eexists.
  - intros i nd c Hi Hc'.
    destruct (shape_lookup _ _ _ _ Hs' Hi) as (nd0 & H0 & _ & Hc0 & _).
    rewrite <- Hc0 in Hc'. destruct (Hc _ _ _ H0 Hc') as (cn & Hcn & Hpc).
    destruct (shape_lookup _ _ _ _ Hs Hcn) as (cn' & ? & Hp' & _).
    exists cn'. split; [done|]. by rewrite Hp'.
  - intros c cn i Hc' Hp.
    destruct (shape_lookup _ _ _ _ Hs' Hc') as (cn0 & H0 & Hp0 & _).
    rewrite Hp in Hp0. destruct (Hd _ _ _ H0 Hp0) as (nd & Hnd & Hin).
    destruct (shape_lookup _ _ _ _ Hs Hnd) as (nd' & ? & _ & Hc0 & _).
    exists nd'. split; [done|]. by rewrite Hc0.
Qed.

Lemma desc_same_shape t t' i j : same_shape t t' -> desc t i j -> desc t' i j.
Proof.
  intros Hs Hd. induction Hd as [|p j nd Hd IH Hj Hp]; [constructor|].
  destruct (shape_lookup _ _ _ _ Hs Hj) as (nd' & Hj' & Hp' & _).
  eapply desc_step; [exact IH|exact Hj'|]. by rewrite Hp'.
Qed.

Lemma desc_le t N i j : Wf t N -> desc t i j -> i <= j.
Proof.
  intros (_ & Hb & _) Hd. induction Hd as [|p j nd Hd IH Hj Hp]; [lia|].
  destruct (Hb _ _ _ Hj Hp). lia.
Qed.

Lemma desc_trans t i j k : desc t i j -> desc t j k -> desc t i k.
Proof.
  intros Hij Hjk. induction Hjk as [|p k nd Hd IH Hk Hp]; [done|].
  eapply desc_step; eauto.
Qed.

Lemma desc_child t i c cn : t !! c = Some cn -> node_parent cn = Some i -> desc t i c.
Proof. intros Hc Hp. eapply desc_step; [constructor|exact Hc|exact Hp]. Qed.

(** A proper descendant of [i] sits below one of [i]'s direct children. *)
Lemma desc_via_child t i j :
  desc t i j -> j <> i ->
  exists c cn, t !! c = Some cn /\ node_parent cn = Some i /\ desc t c j.
Proof.
  intros Hd Hne. induction Hd as [|p j nd Hd IH Hj Hp]; [done|].
  destruct (decide (p = i)) as [->|Hpi].
  - exists j, nd. split; [done|]. split; [done|]. constructor.
  - destruct (IH Hpi) as (c & cn & Hc & Hpc & Hcp).
    exists c, cn. split; [done|]. split; [done|]. eapply desc_step; eauto.
Qed.

Lemma parent_eff_some t p :
  parent_eff t (Some p) = default ∅ (node_eff <$> t !! p).
Proof. simpl. by destruct (t !! p). Qed.

(** Consistency of [j] only depends on [j]'s entry and its parent's cache. *)
Lemma consistent_transfer (t t' : Tree) j :
  (forall nd', t' !! j = Some nd' -> exists nd, t !! j = Some nd
     /\ node_eff nd' = node_eff nd /\ node_sinks nd' = node_sinks nd
     /\ node_parent nd' = node_parent nd) ->
  (forall nd' p, t' !! j = Some nd' -> node_parent nd' = Some p ->
     node_eff <$> t' !! p = node_eff <$> t !! p) ->
  consistent t j -> consistent t' j.
Proof.
  unfold consistent. intros Hj Hp Hc.
  destruct (t' !! j) as [nd'|] eqn:E; [|done].
  destruct (Hj nd' eq_refl) as (nd & Hnd & He & Hs & Hpar).
  rewrite Hnd in Hc. unfold compute_eff in *.
  rewrite He, Hs, Hc, Hpar. f_equal.
  destruct (node_parent nd) as [p|] eqn:Ep; [|done].
  rewrite !parent_eff_some. rewrite (Hp nd' p eq_refl); [done|]. by rewrite Hpar.
Qed.

(** The same entry and the same parent entry. *)
Lemma consistent_same_entries (t t' : Tree) j :
  t' !! j = t !! j ->
  (forall nd p, t !! j = Some nd -> node_parent nd = Some p -> t' !! p = t !! p) ->
  consistent t j -> consistent t' j.
Proof.
  intros Hj Hp. apply consistent_transfer.
  - intros nd' E. rewrite Hj in E. by exists nd'.
  - intros nd' p E Hpar. rewrite Hj in E. by rewrite (Hp nd' p E Hpar).
Qed.

Lemma lookup_none_above t N i : Wf t N -> N <= i -> t !! i = None.
Proof.
  intros (Ha & _) Hle. destruct (t !! i) as [nd|] eqn:E; [|done].
  specialize (Ha _ _ E). lia.
Qed.

(** Below a node that is not in the arena, only the node itself. *)
Lemma desc_of_absent t N i j : Wf t N -> t !! i = None -> desc t i j -> j = i.
Proof.
  intros Hwf Hi Hd. destruct (decide (j = i)) as [|Hne]; [done|].
  destruct (desc_via_child _ _ _ Hd Hne) as (c & cn & Hc & Hp & _).
  destruct Hwf as (_ & Hb & _). destruct (Hb _ _ _ Hc Hp) as [_ [x Hx]]. congruence.
Qed.

(** [update_effective_sinks fuel i] with enough fuel: when every proper
    descendant of [i] is consistent, it keeps the shape, changes only
    entries of the subtree of [i], and makes the whole subtree
    consistent. *)
Lemma update_ok fuel : forall i t N,
  Wf t N -> N <= fuel + i ->
  (forall j, desc t i j -> j <> i -> consistent t j) ->
  same_shape t (update_effective_sinks fuel i t)
  /\ (forall j, update_effective_sinks fuel i t !! j = t !! j \/ desc t i j)
  /\ (forall j, desc t i j -> consistent (update_effective_sinks fuel i t) j).
Proof.
  induction fuel as [|f IHf]; intros i t N Hwf Hfuel Hsub.
  - simpl. split; [done|]. split; [by left|].
    intros j Hd. destruct (decide (j = i)) as [->|Hne]; [|by apply Hsub].
    unfold consistent. by rewrite (lookup_none_above t N i Hwf ltac:(lia)).
  - simpl. destruct (t !! i) as [nd|] eqn:Ei.
    2: { split; [done|]. split; [by left|]. intros j Hd.
         rewrite (desc_of_absent t N i j Hwf Ei Hd). unfold consistent. by rewrite Ei. }
    destruct (decide (compute_eff t i nd = node_eff nd)) as [Heq|Hneq].
    { split; [done|]. split; [by left|]. intros j Hd.
      destruct (decide (j = i)) as [->|Hne]; [|by apply Hsub].
      unfold consistent. by rewrite Ei. }
    set (fresh := compute_eff t i nd).
    set (nd' := with_eff nd fresh).
    pose proof Hwf as (Ha & Hb & Hc & Hd).
    (* the children loop *)
    assert (Hfold : forall cs acc,
      same_shape t acc ->
      (forall j, acc !! j = t !! j \/ desc t i j) ->
      acc !! i = Some nd' ->
      (forall c, c ∈ cs -> exists cn, t !! c = Some cn /\ node_parent cn = Some i) ->
      (forall j, desc t i j -> j <> i -> j ∉ cs -> consistent acc j) ->
      let acc' := foldl (fun acc c => update_effective_sinks f c acc) acc cs in
      same_shape t acc'
      /\ (forall j, acc' !! j = t !! j \/ desc t i j)
      /\ acc' !! i = Some nd'
      /\ (forall j, desc t i j -> j <> i -> consistent acc' j)).
    { induction cs as [|c cs IHcs]; intros acc Hs Hout Hi Hcs Hcons; simpl.
      - split; [done|]. split; [done|]. split; [done|].
        intros j Hdj Hne. apply Hcons; [done|done|]. apply not_elem_of_nil.
      - destruct (Hcs c ltac:(set_solver)) as (cn & Hcn & Hpc).
        pose proof (Hb _ _ _ Hcn Hpc) as [Hic _].
        pose proof (Wf_same_shape _ _ _ Hwf Hs) as Hwfa.
        pose proof (same_shape_sym _ _ Hs) as Hs'.
        assert (Hdic : desc t i c) by (eapply desc_child; eauto).
        (* proper descendants of c are no children of i *)
        assert (Hnotchild : forall k, desc t c k -> k <> c -> k ∉ c :: cs).
        { intros k Hk Hkc Hin.
          destruct (Hcs k ltac:(set_solver)) as (kn & Hkn & Hpk).
          inversion Hk as [|q k' kn' Hq Hkn' Hpq]; subst; [done|].
          rewrite Hkn in Hkn'. injection Hkn' as <-. rewrite Hpk in Hpq.
          injection Hpq as <-. pose proof (desc_le _ _ _ _ Hwf Hq). lia. }
        destruct (IHf c acc N Hwfa ltac:(lia)) as (Hs2 & Hout2 & Hin2).
        { intros k Hk Hkc. pose proof (desc_same_shape _ _ _ _ Hs' Hk) as Hk'.
          pose proof (desc_le _ _ _ _ Hwf Hk').
          apply Hcons; [eapply desc_trans; eauto|lia|by apply Hnotchild]. }
        apply IHcs.
        + eapply same_shape_trans; eauto.
        + intros j. destruct (Hout2 j) as [E|Hcj].
          * rewrite E. apply Hout.
          * right. eapply desc_trans; [exact Hdic|]. by apply (desc_same_shape _ _ _ _ Hs').
        + destruct (Hout2 i) as [E|Hci]; [by rewrite E|].
          pose proof (desc_le _ _ _ _ Hwfa Hci). lia.
        + intros x Hx. apply Hcs. set_solver.
        + intros j Hdj Hne Hnin.
          destruct (decide (j = c)) as [->|Hjc]; [apply Hin2; constructor|].
          inversion Hdj as [|p j' jn Hdp Hjn Hpj]; subst; [done|].
          destruct (shape_lookup _ _ _ _ Hs Hjn) as (jn' & Hjn' & Hpj' & _).
          destruct (Hout2 p) as [Ep|Hcp].
          2: { apply Hin2. eapply desc_step; [exact Hcp|exact Hjn'|]. by rewrite Hpj'. }
          destruct (Hout2 j) as [Ej|Hcj].
          2: by apply Hin2.
          apply (consistent_same_entries acc); [exact Ej| |].
          * intros jn2 q Hjn2 Hq. rewrite Hjn' in Hjn2. injection Hjn2 as <-.
            rewrite Hpj', Hpj in Hq. injection Hq as <-. exact Ep.
          * apply Hcons; [done|done|]. intros Hin.
            by apply elem_of_cons in Hin as [->|]. }
    destruct (Hfold (node_children nd) (<[i := nd']> t)) as (Hs & Hout & Hi & Hcons).
    + by apply same_shape_with_eff.
    + intros j. destruct (decide (j = i)) as [->|Hne]; [right; constructor|].
      left. by rewrite lookup_insert_ne by congruence.
    + by rewrite lookup_insert_eq.
    + intros c Hin. by apply (Hc i nd c Ei).
    + intros j Hdj Hne Hnin.
      inversion Hdj as [|p j' jn Hdp Hjn Hpj]; subst; [done|].
      assert (Hpi : p <> i).
      { intros ->. destruct (Hd _ _ _ Hjn Hpj) as (x & Hx & Hinx).
        rewrite Ei in Hx. injection Hx as <-. done. }
      apply (consistent_same_entries t); [by rewrite lookup_insert_ne| |by apply Hsub].
      intros jn' q Hjn' Hq. rewrite Hjn in Hjn'. injection Hjn' as <-.
      rewrite Hpj in Hq. injection Hq as <-. by rewrite lookup_insert_ne.
    + split; [exact Hs|]. split; [exact Hout|].
      intros j Hdj. destruct (decide (j = i)) as [->|Hne]; [|by apply Hcons].
      set (acc' := foldl _ _ _) in *.
      assert (Hpar : parent_eff acc' (node_parent nd) = parent_eff t (node_parent nd)).
      { destruct (node_parent nd) as [p|] eqn:Ep; [|done].
        rewrite !parent_eff_some. destruct (Hout p) as [E|Hip]; [by rewrite E|].
        pose proof (desc_le _ _ _ _ Hwf Hip).
        destruct (Hb _ _ _ Ei Ep). lia. }
      unfold consistent. rewrite Hi. unfold compute_eff in *. simpl.
      rewrite Hpar. reflexivity.
Qed.

Lemma links_lookup (t t' : Tree) j nd :
  same_links t t' -> t !! j = Some nd ->
  exists nd', t' !! j = Some nd' /\ node_parent nd' = node_parent nd
              /\ node_children nd' = node_children nd.
Proof.
  intros Hs Hj. specialize (Hs j). rewrite Hj in Hs.
  destruct (t' !! j) as [nd'|] eqn:E; [|done].
  simpl in Hs. injection Hs as Hp Hc. by exists nd'.
Qed.

Lemma Wf_same_links t t' N : Wf t N -> same_links t t' -> Wf t' N.
Proof.
  intros (Ha & Hb & Hc & Hd) Hs.
  assert (Hs' : same_links t' t) by (intros j; by rewrite Hs).
  split; [|split; [|split]].
  - intros i nd Hi. destruct (links_lookup _ _ _ _ Hs' Hi) as (nd0 & H0 & _). eauto.
  - intros i nd p Hi Hp.
    destruct (links_lookup _ _ _ _ Hs' Hi) as (nd0 & H0 & Hp0 & _).
    rewrite Hp in Hp0. destruct (Hb _ _ _ H0 Hp0) as [Hlt [pn Hpn]].
    split; [done|]. destruct (links_lookup _ _ _ _ Hs Hpn) as (pn' & ? & _). by eexists.
  - intros i nd c Hi Hc'.
    destruct (links_lookup _ _ _ _ Hs' Hi) as (nd0 & H0 & _ & Hc0).
    rewrite <- Hc0 in Hc'. destruct (Hc _ _ _ H0 Hc') as (cn & Hcn & Hpc).
    destruct (links_lookup _ _ _ _ Hs Hcn) as (cn' & ? & Hp' & _).
    exists cn'. split; [done|]. by rewrite Hp'.
  - intros c cn i Hc' Hp.
    destruct (links_lookup _ _ _ _ Hs' Hc') as (cn0 & H0 & Hp0 & _).
    rewrite Hp in Hp0. destruct (Hd _ _ _ H0 Hp0) as (nd & Hnd & Hin).
    destruct (links_lookup _ _ _ _ Hs Hnd) as (nd' & ? & _ & Hc0).
    exists nd'. split; [done|]. by rewrite Hc0.
Qed.

(** After a change confined to [i]'s subtree root, recomputing [i] makes
    the whole arena consistent again. *)
Lemma update_all fuel i t N :
  Wf t N -> N <= fuel + i ->
  (forall j, j <> i -> consistent t j) ->
  same_shape t (update_effective_sinks fuel i t)
  /\ all_consistent (update_effective_sinks fuel i t).
Proof.
  intros Hwf Hfuel Hcons.
  destruct (update_ok fuel i t N Hwf Hfuel) as (Hs & Hout & Hin).
  { intros j _ Hne. by apply Hcons. }
  split; [done|]. intros j.
  destruct (Hout j) as [Ej|Hdj]; [|by apply Hin].
  destruct (decide (j = i)) as [->|Hne].
  { apply Hin. constructor. }
  destruct (t !! j) as [jn|] eqn:Ejn.
  2: { unfold consistent. by rewrite Ej. }
  rewrite <- Ejn in Ej.
  destruct (node_parent jn) as [p|] eqn:Ep.
  - destruct (Hout p) as [E|Hdp].
    + apply (consistent_same_entries t); [exact Ej| |by apply Hcons].
      intros jn' q Hjn' Hq. rewrite Ejn in Hjn'. injection Hjn' as <-.
      rewrite Ep in Hq. injection Hq as <-. exact E.
    + apply Hin. eapply desc_step; [exact Hdp|exact Ejn|exact Ep].
  - apply (consistent_same_entries t); [exact Ej| |by apply Hcons].
    intros jn' q Hjn' Hq. rewrite Ejn in Hjn'. injection Hjn' as <-. congruence.
Qed.

(** A local change of a node's sinks. *)
Lemma local_change_ok t N i nd s' :
  Wf t N -> all_consistent t -> t !! i = Some nd ->
  Wf (<[i := with_sinks nd s']> t) N
  /\ (forall j, j <> i -> consistent (<[i := with_sinks nd s']> t) j).
Proof.
  intros Hwf Hcons Hi. split.
  - apply (Wf_same_links t); [done|]. intros j.
    destruct (decide (j = i)) as [->|Hne].
    + by rewrite lookup_insert_eq, Hi.
    + by rewrite lookup_insert_ne by congruence.
  - intros j Hne. apply (consistent_transfer t); [| |apply Hcons].
    + intros nd' E. rewrite lookup_insert_ne in E by congruence. by exists nd'.
    + intros nd' p _ _. destruct (decide (p = i)) as [->|Hpi].
      * by rewrite lookup_insert_eq, Hi.
      * by rewrite lookup_insert_ne by congruence.
Qed.

(** A new root node. *)
Lemma new_root_ok t N :
  Wf t N -> all_consistent t ->
  Wf (<[N := empty_node None]> t) (S N)
  /\ (forall j, j <> N -> consistent (<[N := empty_node None]> t) j).
Proof.
  intros Hwf Hcons. pose proof Hwf as (Ha & Hb & Hc & Hd).
  assert (HN : t !! N = None) by (apply (lookup_none_above t N); [done|lia]).
  split; [split; [|split; [|split]]|].
  - intros i nd Hi. destruct (decide (i = N)) as [->|Hne]; [lia|].
    rewrite lookup_insert_ne in Hi by congruence. specialize (Ha _ _ Hi). lia.
  - intros i nd p Hi Hp. destruct (decide (i = N)) as [->|Hne].
    + rewrite lookup_insert_eq in Hi. injection Hi as <-. done.
    + rewrite lookup_insert_ne in Hi by congruence.
      destruct (Hb _ _ _ Hi Hp) as [Hlt [pn Hpn]]. split; [done|].
      rewrite lookup_insert_ne; [by eexists|]. specialize (Ha _ _ Hi). lia.
  - intros i nd c Hi Hin. destruct (decide (i = N)) as [->|Hne].
    + rewrite lookup_insert_eq in Hi. injection Hi as <-. by apply not_elem_of_nil in Hin.
    + rewrite lookup_insert_ne in Hi by congruence.
      destruct (Hc _ _ _ Hi Hin) as (cn & Hcn & Hpc). exists cn.
      rewrite lookup_insert_ne; [done|]. specialize (Ha _ _ Hcn). lia.
  - intros c cn i Hc' Hp. destruct (decide (c = N)) as [->|Hne].
    + rewrite lookup_insert_eq in Hc'. injection Hc' as <-. done.
    + rewrite lookup_insert_ne in Hc' by congruence.
      destruct (Hd _ _ _ Hc' Hp) as (nd & Hnd & Hin). exists nd.
      rewrite lookup_insert_ne; [done|]. specialize (Ha _ _ Hnd). lia.
  - intros j Hne. apply (consistent_same_entries t); [by rewrite lookup_insert_ne| |apply Hcons].
    intros jn q Hjn Hq. destruct (Hb _ _ _ Hjn Hq) as [Hlt _].
    specialize (Ha _ _ Hjn). by rewrite lookup_insert_ne by lia.
Qed.

(** A new node attached below an existing node [p]. *)
Lemma new_child_ok t N p pn :
  Wf t N -> all_consistent t -> t !! p = Some pn ->
  let t0 := <[N := empty_node (Some p)]>
              (<[p := with_children pn (N :: node_children pn)]> t) in
  Wf t0 (S N) /\ (forall j, j <> N -> consistent t0 j).
Proof.
  intros Hwf Hcons Hp t0. pose proof Hwf as (Ha & Hb & Hc & Hd).
  pose proof (Ha _ _ Hp) as HpN.
  assert (Hlk : forall j, t0 !! j =
    if decide (j = N) then Some (empty_node (Some p))
    else if decide (j = p) then Some (with_children pn (N :: node_children pn))
    else t !! j).
  { intros j. subst t0. destruct (decide (j = N)) as [->|HjN].
    - by rewrite lookup_insert_eq.
    - rewrite lookup_insert_ne by congruence.
      destruct (decide (j = p)) as [->|Hjp].
      + by rewrite lookup_insert_eq.
      + by rewrite lookup_insert_ne by congruence. }
  (* every old node keeps its parent, sinks and cache *)
  assert (Hold : forall j nd', j <> N -> t0 !! j = Some nd' ->
            exists nd, t !! j = Some nd /\ node_parent nd' = node_parent nd
              /\ node_sinks nd' = node_sinks nd /\ node_eff nd' = node_eff nd
              /\ (j <> p -> node_children nd' = node_children nd)).
  { intros j nd' HjN E. rewrite Hlk in E.
    destruct (decide (j = N)) as [|_]; [done|].
    destruct (decide (j = p)) as [->|Hjp].
    - injection E as <-. exists pn. by repeat split.
    - exists nd'. by repeat split. }
  assert (Hsome : forall j, j <> N -> is_Some (t !! j) -> is_Some (t0 !! j)).
  { intros j HjN [x Hx]. rewrite Hlk.
    destruct (decide (j = N)) as [|_]; [done|].
    destruct (decide (j = p)); by eexists. }
  split; [split; [|split; [|split]]|].
  - intros i nd Hi. destruct (decide (i = N)) as [->|HiN]; [lia|].
    destruct (Hold _ _ HiN Hi) as (nd0 & H0 & _). specialize (Ha _ _ H0). lia.
  - intros i nd q Hi Hq. destruct (decide (i = N)) as [->|HiN].
    + rewrite Hlk in Hi. destruct (decide (N = N)) as [_|]; [|done].
      injection Hi as <-. injection Hq as <-. split; [done|].
      apply Hsome; [lia|by eexists].
    + destruct (Hold _ _ HiN Hi) as (nd0 & H0 & Hpar & _).
      rewrite Hpar in Hq. destruct (Hb _ _ _ H0 Hq) as [Hlt Hq0].
      split; [done|]. apply Hsome; [|done]. specialize (Ha _ _ H0). lia.
  - intros i nd c Hi Hin. destruct (decide (i = N)) as [->|HiN].
    + rewrite Hlk in Hi. destruct (decide (N = N)) as [_|]; [|done].
      injection Hi as <-. by apply not_elem_of_nil in Hin.
    + assert (Hcase : c = N /\ i = p \/ exists nd0, t !! i = Some nd0 /\ c ∈ node_children nd0).
      { rewrite Hlk in Hi. destruct (decide (i = N)); [done|].
        destruct (decide (i = p)) as [->|Hip].
        - injection Hi as <-. simpl in Hin. apply elem_of_cons in Hin as [->|Hin]; [by left|].
          right. by exists pn.
        - right. by exists nd. }
      destruct Hcase as [[-> ->]|(nd0 & H0 & Hin0)].
      * exists (empty_node (Some p)). rewrite Hlk. by destruct (decide (N = N)).
      * destruct (Hc _ _ _ H0 Hin0) as (cn & Hcn & Hpc).
        assert (HcN : c <> N) by (specialize (Ha _ _ Hcn); lia).
        destruct (Hsome c HcN ltac:(by eexists)) as [cn' Hcn'].
        destruct (Hold _ _ HcN Hcn') as (cn0 & Hcn0 & Hpar & _).
        rewrite Hcn in Hcn0. injection Hcn0 as <-. exists cn'. by rewrite Hpar.
  - intros c cn i Hc' Hq. destruct (decide (c = N)) as [->|HcN].
    + rewrite Hlk in Hc'. destruct (decide (N = N)) as [_|]; [|done].
      injection Hc' as <-. injection Hq as <-.
      exists (with_children pn (N :: node_children pn)). rewrite Hlk.
      destruct (decide (p = N)); [lia|]. destruct (decide (p = p)); [|done].
      split; [done|]. simpl. apply elem_of_cons. by left.
    + destruct (Hold _ _ HcN Hc') as (cn0 & H0 & Hpar & _).
      rewrite Hpar in Hq. destruct (Hd _ _ _ H0 Hq) as (nd & Hnd & Hin).
      assert (HiN : i <> N) by (specialize (Ha _ _ Hnd); lia).
      rewrite Hlk. destruct (decide (i = N)); [done|].
      destruct (decide (i = p)) as [->|Hip].
      * rewrite Hp in Hnd. injection Hnd as <-.
        eexists; split; [done|]. simpl. apply elem_of_cons. by right.
      * by exists nd.
  - intros j HjN. apply (consistent_transfer t); [| |apply Hcons].
    + intros nd' E. destruct (Hold _ _ HjN E) as (nd & H0 & Hpar & Hsk & He & _).
      by exists nd.
    + intros nd' q E Hq. destruct (Hold _ _ HjN E) as (nd & H0 & Hpar & _).
      rewrite Hpar in Hq. destruct (Hb _ _ _ H0 Hq) as [Hlt _].
      specialize (Ha _ _ H0). rewrite Hlk.
      destruct (decide (q = N)); [lia|].
      destruct (decide (q = p)) as [->|]; [|done]. by rewrite Hp.
Qed.

(** Every operation keeps the arena well formed and every cache
    consistent. *)
Lemma exec_ok st op :
  Wf (nodes st) (next_id st) -> all_consistent (nodes st) ->
  Wf (nodes (exec st op)) (next_id (exec st op)) /\ all_consistent (nodes (exec st op)).
Proof.
  intros Hwf Hcons. destruct st as [t N]; simpl in *.
  assert (Hlocal : forall i nd s', t !! i = Some nd ->
    Wf (update_effective_sinks (S N) i (<[i := with_sinks nd s']> t)) N
    /\ all_consistent (update_effective_sinks (S N) i (<[i := with_sinks nd s']> t))).
  { intros i nd s' Hi.
    destruct (local_change_ok t N i nd s' Hwf Hcons Hi) as [Hwf0 Hc0].
    destruct (update_all (S N) i _ N Hwf0 ltac:(lia) Hc0) as [Hs Hall].
    split; [|done]. by apply (Wf_same_shape _ _ _ Hwf0). }
  destruct op as [[p|]|i s|i s|i s b];
    unfold exec; cbn -[update_effective_sinks remove_sink set_sink_enabled add_sink].
  - destruct (t !! p) as [pn|] eqn:Hp; [|done].
    destruct (new_child_ok t N p pn Hwf Hcons Hp) as [Hwf0 Hc0].
    destruct (update_all (S (S N)) N _ (S N) Hwf0 ltac:(lia) Hc0) as [Hs Hall].
    split; [|done]. by apply (Wf_same_shape _ _ _ Hwf0).
  - destruct (new_root_ok t N Hwf Hcons) as [Hwf0 Hc0].
    destruct (update_all (S (S N)) N _ (S N) Hwf0 ltac:(lia) Hc0) as [Hs Hall].
    split; [|done]. by apply (Wf_same_shape _ _ _ Hwf0).
  - destruct (t !! i) as [nd|] eqn:Hi; [|done]. by apply Hlocal.
  - destruct (t !! i) as [nd|] eqn:Hi; [|done].
    destruct (remove_sink (node_sinks nd) s) as [[|] s']; [by apply Hlocal|done].
  - destruct (t !! i) as [nd|] eqn:Hi; [|done].
    destruct (set_sink_enabled (node_sinks nd) s b) as [[|] s']; [by apply Hlocal|done].
Qed.

Lemma run_ops_ok ops :
  Wf (nodes (run_ops ops)) (next_id (run_ops ops)) /\ all_consistent (nodes (run_ops ops)).
Proof.
  unfold run_ops.
  assert (H0 : Wf (nodes empty_tree) (next_id empty_tree) /\ all_consistent (nodes empty_tree)).
  { split; [split; [|split; [|split]]|]; simpl; intros *; by rewrite ?lookup_empty. }
  revert H0. generalize empty_tree.
  induction ops as [|op ops IH]; intros st [Hwf Hc]; simpl; [done|].
  apply IH. by apply exec_ok.
Qed.

(** Caches are determined by topology and local sinks. *)
Lemma consistent_unique t1 t2 N1 N2 :
  Wf t1 N1 -> Wf t2 N2 -> all_consistent t1 -> all_consistent t2 -> same_shape t1 t2 ->
  forall j, node_eff <$> t1 !! j = node_eff <$> t2 !! j.
Proof.
  intros Hwf1 Hwf2 Hc1 Hc2 Hs j.
  induction j as [j IH] using (well_founded_induction lt_wf).
  destruct (t1 !! j) as [n1|] eqn:E1.
  - destruct (shape_lookup _ _ _ _ Hs E1) as (n2 & E2 & Hp & _ & Hk).
    specialize (Hc1 j). specialize (Hc2 j). unfold consistent in Hc1, Hc2.
    rewrite E1 in Hc1. rewrite E2 in Hc2. rewrite E2. simpl. f_equal.
    rewrite Hc1, Hc2. unfold compute_eff. rewrite Hk, Hp. f_equal.
    destruct (node_parent n1) as [q|] eqn:Eq; [|done].
    rewrite !parent_eff_some. destruct Hwf1 as (_ & Hb & _).
    destruct (Hb _ _ _ E1 Eq) as [Hlt _]. by rewrite (IH q Hlt).
  - specialize (Hs j). rewrite E1 in Hs. simpl.
    destruct (t2 !! j); [done|done].
Qed.

End TreeProofs.

(** C3.  After any sequence of node creations and sink add / remove /
    enable operations, every node's cached effective set is its own
    enabled sinks (mapped to itself) overlaid on its parent's effective
    set, own entries winning; and two sequences reaching the same topology
    and local sinks, in whatever order, leave the same caches. *)
Theorem C3_effective_set_overlay (ops1 ops2 : list Op)
    (Htopo : same_shape (nodes (run_ops ops1)) (nodes (run_ops ops2))) :
  (forall j nd, nodes (run_ops ops1) !! j = Some nd ->
     node_eff nd = own_effective j (node_sinks nd)
                   ∪ parent_eff (nodes (run_ops ops1)) (node_parent nd))
  /\ (forall j, node_eff <$> nodes (run_ops ops1) !! j
              = node_eff <$> nodes (run_ops ops2) !! j).
Proof.
  destruct (run_ops_ok ops1) as [Hwf1 Hc1].
  destruct (run_ops_ok ops2) as [Hwf2 Hc2].
  split.
  - intros j nd E. specialize (Hc1 j). unfold consistent in Hc1. by rewrite E in Hc1.
  - exact (consistent_unique _ _ _ _ Hwf1 Hwf2 Hc1 Hc2 Htopo).
Qed.

(** Witness of C3: a root 0 with a child 1 and a grandchild 2; sink 7 is
    added at 0 and at 1 and disabled at 1, sink 8 is added at 0 and then
    removed, in two different orders. *)
Lemma C3_effective_set_overlay_witness :
  same_shape
    (nodes (run_ops [NewNode None; NewNode (Some 0); NewNode (Some 1);
                     AddSink 0 7; AddSink 1 7; SetSinkEnabled 1 7 false]))
    (nodes (run_ops [NewNode None; AddSink 0 7; AddSink 0 8; NewNode (Some 0);
                     AddSink 1 7; NewNode (Some 1); RemoveSink 0 8;
                     SetSinkEnabled 1 7 false]))
  /\ node_eff <$> nodes (run_ops [NewNode None; NewNode (Some 0); NewNode (Some 1);
                     AddSink 0 7; AddSink 1 7; SetSinkEnabled 1 7 false]) !! 2
     = node_eff <$> nodes (run_ops [NewNode None; AddSink 0 7; AddSink 0 8; NewNode (Some 0);
                     AddSink 1 7; NewNode (Some 1); RemoveSink 0 8;
                     SetSinkEnabled 1 7 false]) !! 2.
Proof.
  assert (Hs : same_shape
    (nodes (run_ops [NewNode None; NewNode (Some 0); NewNode (Some 1);
                     AddSink 0 7; AddSink 1 7; SetSinkEnabled 1 7 false]))
    (nodes (run_ops [NewNode None; AddSink 0 7; AddSink 0 8; NewNode (Some 0);
                     AddSink 1 7; NewNode (Some 1); RemoveSink 0 8;
                     SetSinkEnabled 1 7 false]))).
  { intros j. rewrite <- !lookup_fmap. apply (f_equal (fun m => m !! j)). vm_compute. reflexivity. }
  split; [exact Hs|].
  exact (proj2 (C3_effective_set_overlay _ _ Hs) 2).
Defined.

(** ** Further properties of the code *)

(** *** Helpers *)

Lemma foldl_emplace_lookup (l : list nat) : forall (m : SinkMap) s,
  foldl emplace_enabled m l !! s
  = if bool_decide (s ∈ l) then Some (default true (m !! s)) else m !! s.
Proof.
  induction l as [|a l IH]; intros m s; cbn [foldl].
  - rewrite bool_decide_eq_false_2; [done|]. apply not_elem_of_nil.
  - rewrite IH. unfold emplace_enabled.
    destruct (decide (s = a)) as [->|Hne].
    + rewrite (bool_decide_eq_true_2 (a ∈ a :: l)) by (apply elem_of_cons; left; reflexivity).
      destruct (m !! a) eqn:E; case_bool_decide; rewrite ?E, ?lookup_insert_eq;
        reflexivity.
    + assert (Hiff : s ∈ a :: l <-> s ∈ l) by (rewrite elem_of_cons; naive_solver).
      destruct (m !! a); [|rewrite lookup_insert_ne by congruence];
        do 2 case_bool_decide; naive_solver.
Qed.

Lemma ctor_sinks_lookup (sinks : list nat) (s : nat) :
  ctor_sinks sinks !! s = if bool_decide (s ∈ sinks) then Some true else None.
Proof. unfold ctor_sinks. rewrite foldl_emplace_lookup, lookup_empty. reflexivity. Qed.

Lemma in_enabled_sinks (m : SinkMap) s :
  In s (enabled_sinks (map_to_list m)) <-> m !! s = Some true.
Proof.
  unfold enabled_sinks. rewrite in_map_iff. split.
  - intros [[k b] [Hk Hin]]. simpl in Hk; subst k.
    apply filter_In in Hin as [Hin Hb]. simpl in Hb; subst b.
    by apply elem_of_map_to_list, list_elem_of_In.
  - intros H. exists (s, true). split; [done|].
    apply filter_In. split; [|done].
    by apply list_elem_of_In, elem_of_map_to_list.
Qed.

Lemma plain_loop_delivered lvl cb (l : list (nat * bool)) : forall buf,
  map fst (delivered (fst (plain_loop lvl cb buf l))) = enabled_sinks l.
Proof.
  induction l as [|[s b] l IH]; intros buf; simpl; [done|].
  destruct b; simpl; [|apply IH].
  specialize (IH ""%string).
  destruct (plain_loop lvl cb "" l) as [evs' buf'] eqn:E; simpl in *.
  change (enabled_sinks ((s, true) :: l)) with (s :: enabled_sinks l).
  rewrite <- IH. destruct cb; unfold delivered; simpl; reflexivity.
Qed.

Lemma delivered_emission buf cb (ss : list nat) :
  map fst (delivered (emission_events buf cb ss))
  = match cb with VoidFn => [] | _ => ss end.
Proof.
  destruct ss as [|s ss]; [by destruct cb|].
  destruct cb; simpl; unfold delivered; simpl; rewrite ?omap_app; simpl; try done;
    f_equal; induction ss; simpl; by f_equal.
Qed.

Lemma delivered_logger_loop m (l : list (nat * bool)) :
  map fst (delivered (flat_map (fun '(s, _) => [Invoke; SinkMessage s m]) l)) = map fst l.
Proof.
  induction l as [|[s b] l IH]; simpl; [done|].
  unfold delivered in *; simpl. by rewrite IH.
Qed.

Lemma delivered_logger_loop_msg m (l : list (nat * bool)) s m' :
  In (s, m') (delivered (flat_map (fun '(s, _) => [Invoke; SinkMessage s m]) l))
  <-> m' = m /\ In s (map fst l).
Proof.
  induction l as [|[k b] l IH]; simpl; [naive_solver|].
  unfold delivered in *; simpl. rewrite IH. naive_solver.
Qed.

Lemma invocations_logger_loop m (l : list (nat * bool)) :
  invocations (flat_map (fun '(s, _) => [Invoke; SinkMessage s m]) l) = length l.
Proof.
  induction l as [|[s b] l IH]; simpl; [done|].
  unfold invocations in *; simpl. by rewrite IH.
Qed.

Lemma map_fst_fmap {A B} (l : list (A * B)) : map fst l = l.*1.
Proof. induction l; simpl; by f_equal. Qed.

Lemma NoDup_fst_filter {A B} (f : A * B -> bool) (l : list (A * B)) :
  NoDup (map fst l) -> NoDup (map fst (List.filter f l)).
Proof.
  induction l as [|[a b] l IH]; simpl; intros Hnd; [constructor|].
  apply NoDup_cons in Hnd as [Hnotin Hnd].
  destruct (f (a, b)); simpl; [|by apply IH].
  apply NoDup_cons; split; [|by apply IH].
  intros Hin. apply Hnotin. apply list_elem_of_In in Hin. apply list_elem_of_In.
  apply in_map_iff in Hin as [[a' b'] [Ha Hin]]. simpl in Ha; subst a'.
  apply filter_In in Hin as [Hin _].
  apply in_map_iff. by exists (a, b').
Qed.

Lemma NoDup_fst_map_to_list' {A} (m : gmap nat A) : NoDup (map fst (map_to_list m)).
Proof. rewrite map_fst_fmap. apply NoDup_fst_map_to_list. Qed.

Lemma ostream_message_eq (render : LogRecord -> string) (buffer : string)
    (record : LogRecord) (stream : list StreamEvent) :
  ostream_message render buffer record stream
  = (buffer, stream ++ [StreamWrite (String.append (render record) newline)]).
Proof.
  unfold ostream_message, sink_format.
  rewrite string_append_assoc.
  by rewrite substring_append_suffix, substring_append_prefix.
Qed.

Lemma count_insert f (ts : list Pc) : forall k x y, ts !! k = Some x ->
  count_pc f (<[k := y]> ts) + (if f x then 1 else 0)
  = count_pc f ts + (if f y then 1 else 0).
Proof.
  unfold count_pc.
  induction ts as [|z ts IH]; intros [|k] x y Hk; simpl in *; try discriminate.
  - injection Hk as ->. destruct (f x), (f y); simpl; lia.
  - specialize (IH k x y Hk). destruct (f z); simpl; lia.
Qed.

Lemma mt_step_inv k s s' : mt_inv s -> mt_step k s = Some s' -> mt_inv s'.
Proof.
  intros (Hr & Hw & Hx) Hstep. unfold mt_step in Hstep.
  destruct (threads s !! k) as [pc|] eqn:Hk; [|discriminate].
  destruct pc;
    repeat match goal with
           | H : context [if ?b then _ else _] |- _ => destruct b eqn:?
           end;
    try discriminate; injection Hstep as <-;
    unfold mt_inv, set_pc; simpl;
    match goal with
    | |- context [<[k := ?pc']> (threads s)] =>
        pose proof (count_insert in_read _ k _ pc' Hk) as Cr;
        pose proof (count_insert in_write _ k _ pc' Hk) as Cw
    end;
    simpl in Cr, Cw;
    repeat match goal with
           | H : (_ || _) = false |- _ => apply orb_false_iff in H as [? ?]
           | H : negb _ = false |- _ => apply negb_false_iff in H
           | H : Nat.eqb _ _ = true |- _ => apply Nat.eqb_eq in H
           end;
    destruct (writer s) eqn:W; try discriminate;
    repeat split; intros; try discriminate; try lia.
  all: try (specialize (Hx eq_refl); lia).
Qed.

Lemma mt_run_inv sched : forall s, mt_inv s -> mt_inv (mt_run sched s).
Proof.
  induction sched as [|k ks IH]; intros s Hs; simpl; [done|].
  apply IH. destruct (mt_step k s) eqn:E; [|done].
  by apply (mt_step_inv k s).
Qed.

Lemma mt_init_inv ts : Forall (fun pc => at_start pc = true) ts -> mt_inv (mt_init ts).
Proof.
  intros Hall. unfold mt_inv, mt_init, count_pc; simpl.
  assert (H : forall pc, at_start pc = true -> in_read pc = false /\ in_write pc = false)
    by (intros []; simpl; done).
  induction Hall as [|pc ts Hpc Hall IH]; simpl; [done|].
  destruct (H pc Hpc) as [-> ->]. done.
Qed.

(** *** The sink map of the legacy driver and of [Logger] *)

(** X1.  The constructors register exactly the listed sinks, each enabled;
    a sink listed twice is registered once and nothing else is present. *)
Theorem X1_ctor_registers_enabled (sinks : list nat) (s : nat) :
  ctor_sinks sinks !! s = (if bool_decide (s ∈ sinks) then Some true else None)
  /\ sink_enabled (ctor_sinks sinks) s = bool_decide (s ∈ sinks).
Proof.
  split; [apply ctor_sinks_lookup|].
  unfold sink_enabled. rewrite ctor_sinks_lookup. by case_bool_decide.
Qed.

(** X2.  [sink_enabled] reads back what the last operation on that sink
    wrote: true after [add_sink], false after [remove_sink], the flag after
    [set_sink_enabled] on a registered sink and false on an unknown one;
    an operation on one sink never changes [sink_enabled] of another. *)
Theorem X2_sink_enabled_round_trip (sinks : SinkMap) (s o : nat) (b : bool)
    (Ho : o <> s) :
  sink_enabled (snd (add_sink sinks s)) s = true
  /\ sink_enabled (snd (remove_sink sinks s)) s = false
  /\ sink_enabled (snd (set_sink_enabled sinks s b)) s
     = match sinks !! s with Some _ => b | None => false end
  /\ sink_enabled (snd (add_sink sinks s)) o = sink_enabled sinks o
  /\ sink_enabled (snd (remove_sink sinks s)) o = sink_enabled sinks o
  /\ sink_enabled (snd (set_sink_enabled sinks s b)) o = sink_enabled sinks o.
Proof.
  unfold sink_enabled, add_sink, remove_sink, set_sink_enabled; simpl.
  rewrite lookup_insert_eq, lookup_delete_eq, lookup_insert_ne, lookup_delete_ne
    by congruence.
  destruct (sinks !! s) eqn:E; simpl.
  - rewrite lookup_insert_eq, lookup_insert_ne by congruence. done.
  - rewrite E. done.
Qed.

(** Witness of X2: sink 3 registered and enabled, sink 5 registered and
    disabled. *)
Lemma X2_sink_enabled_round_trip_witness :
  (5 <> 3)
  /\ sink_enabled (snd (set_sink_enabled (<[3:=true]> (<[5:=false]> ∅)) 3 false)) 3 = false
  /\ sink_enabled (snd (set_sink_enabled (<[3:=true]> (<[5:=false]> ∅)) 3 false)) 5 = false.
Proof.
  assert (Hne : 5 <> 3) by lia.
  destruct (X2_sink_enabled_round_trip (<[3:=true]> (<[5:=false]> ∅)) 3 5 false Hne)
    as (_ & _ & H3 & _ & _ & H5).
  split; [exact Hne|]. split.
  - rewrite H3. reflexivity.
  - rewrite H5. reflexivity.
Defined.

(** X3.  [remove_sink] reports whether the sink was registered, and is
    idempotent: a second removal of the same sink returns false and leaves
    the map as the first removal left it. *)
Theorem X3_remove_sink_idempotent (sinks : SinkMap) (s : nat) :
  fst (remove_sink sinks s) = bool_decide (is_Some (sinks !! s))
  /\ remove_sink (snd (remove_sink sinks s)) s = (false, snd (remove_sink sinks s)).
Proof.
  unfold remove_sink; simpl. split.
  - destruct (sinks !! s) eqn:E;
      [rewrite bool_decide_eq_true_2 by (eexists; reflexivity)
      |rewrite bool_decide_eq_false_2 by (intros [? ?]; discriminate)]; done.
  - rewrite lookup_delete_eq, delete_id by apply lookup_delete_eq. done.
Qed.

(** X4.  Removing a sink and adding it back: [add_sink] then reports a
    fresh insertion, and the map is the one [add_sink] alone would give. *)
Theorem X4_remove_then_add (sinks : SinkMap) (s : nat) :
  add_sink (snd (remove_sink sinks s)) s = (true, snd (add_sink sinks s)).
Proof.
  unfold add_sink, remove_sink; simpl.
  by rewrite lookup_delete_eq, insert_delete_eq.
Qed.

(** X5.  [set_sink_enabled] never registers nor unregisters a sink, and
    of two successive calls on the same sink only the last one counts. *)
Theorem X5_set_sink_enabled_keeps_registration (sinks : SinkMap) (s : nat)
    (b1 b2 : bool) :
  dom (snd (set_sink_enabled sinks s b1)) = dom sinks
  /\ set_sink_enabled (snd (set_sink_enabled sinks s b1)) s b2
     = set_sink_enabled sinks s b2.
Proof.
  unfold set_sink_enabled. destruct (sinks !! s) eqn:E; simpl.
  - split.
    + apply dom_insert_lookup_L. by eexists.
    + by rewrite lookup_insert_eq, insert_insert_eq.
  - rewrite E. done.
Qed.

(** *** Emission in the legacy single-threaded driver *)

(** X7.  The sinks an admitted legacy call reaches are exactly the enabled
    ones, in iteration order; in particular a sink disabled with
    [set_sink_enabled] receives nothing. *)
Theorem X7_only_enabled_sinks_receive (buf : string) (logger_level level : Level)
    (cb : Producer) (sinks : SinkMap) (s : nat) :
  map fst (delivered (fst (plain_message buf logger_level level cb sinks)))
  = (if at_least_as_critical level logger_level
     then enabled_sinks (map_to_list sinks) else [])
  /\ forall m, ~ In (s, m) (delivered (fst (plain_message buf logger_level level cb
                                             (snd (set_sink_enabled sinks s false))))).
Proof.
  assert (Hd : forall m : SinkMap,
    map fst (delivered (fst (plain_message buf logger_level level cb m)))
    = if at_least_as_critical level logger_level
      then enabled_sinks (map_to_list m) else []).
  { intros m. unfold plain_message. rewrite level_ltb_critical.
    destruct (at_least_as_critical level logger_level); simpl;
      [apply plain_loop_delivered|done]. }
  split; [apply Hd|].
  intros m Hin. apply (in_map fst) in Hin. simpl in Hin. rewrite Hd in Hin.
  destruct (at_least_as_critical level logger_level); [|done].
  apply in_enabled_sinks in Hin.
  unfold set_sink_enabled in Hin. destruct (sinks !! s) eqn:E; simpl in Hin.
  - by rewrite lookup_insert_eq in Hin.
  - congruence.
Qed.

(** *** The [Logger] of include/log/logger.h *)

(** X8.  [Logger::add_sink] reports whether the sink is new and stores it
    with the flag false, yet [Logger::emit] ignores the flag: an admitted
    call still delivers the message to that sink.  After
    [Logger::remove_sink] the sink receives nothing. *)
Theorem X8_logger_add_sink_still_receives (lg : PlainLogger.Logger) (s : nat)
    (level : Level) (m m' : string) :
  let '(inserted, lg') := PlainLogger.add_sink lg s in
  inserted = bool_decide (PlainLogger.m_sinks lg !! s = None)
  /\ PlainLogger.m_sinks lg' !! s = Some false
  /\ (In (s, m) (delivered (PlainLogger.emit lg' level m))
      <-> at_least_as_critical level (PlainLogger.m_level lg) = true)
  /\ ~ In (s, m') (delivered (PlainLogger.emit (snd (PlainLogger.remove_sink lg' s))
                                               level m')).
Proof.
  unfold PlainLogger.add_sink, PlainLogger.remove_sink, PlainLogger.emit,
    logger_emit; simpl.
  split; [by destruct (PlainLogger.m_sinks lg !! s); case_bool_decide|].
  split; [apply lookup_insert_eq|].
  rewrite !logger_emit_loop_admitted. split.
  - destruct (at_least_as_critical level (PlainLogger.m_level lg)); [|naive_solver].
    rewrite delivered_logger_loop_msg. split; [done|]. intros _. split; [done|].
    rewrite map_fst_fmap, <- list_elem_of_In, list_elem_of_fmap.
    exists (s, false). split; [done|]. apply elem_of_map_to_list, lookup_insert_eq.
  - destruct (at_least_as_critical level (PlainLogger.m_level lg)); [|cbn; tauto].
    rewrite delivered_logger_loop_msg. intros [_ Hin].
    rewrite map_fst_fmap, <- list_elem_of_In, list_elem_of_fmap in Hin.
    destruct Hin as [[k b] [Hk Hin]]. simpl in Hk; subst k.
    apply elem_of_map_to_list in Hin. by rewrite lookup_delete_eq in Hin.
Qed.

(** X9.  [Logger::emit] evaluates the callback once per registered sink,
    enabled or not, and delivers the message to each of them; a call at a
    level the logger does not admit evaluates nothing and delivers
    nothing. *)
Theorem X9_emit_once_per_sink (lg : PlainLogger.Logger) (level : Level) (m : string) :
  invocations (PlainLogger.emit lg level m)
  = (if at_least_as_critical level (PlainLogger.m_level lg)
     then size (PlainLogger.m_sinks lg) else 0)
  /\ map fst (delivered (PlainLogger.emit lg level m))
  = (if at_least_as_critical level (PlainLogger.m_level lg)
     then map fst (map_to_list (PlainLogger.m_sinks lg)) else []).
Proof.
  unfold PlainLogger.emit, logger_emit. rewrite logger_emit_loop_admitted.
  destruct (at_least_as_critical level (PlainLogger.m_level lg)); [|done].
  rewrite invocations_logger_loop, delivered_logger_loop.
  split; [apply length_map_to_list|done].
Qed.

(** X10.  On a [Logger] built with sinks [sinks], whatever its initial
    threshold, after [set_level level] a call to [info(m)] delivers [m],
    once, to every listed sink when [level] is Info, Debug or Trace, and
    to no sink when it is Fatal, Error or Warning. *)
Theorem X10_info_after_set_level (name : string) (level0 level : Level)
    (sinks : list nat) (m : string) (s : nat) (m' : string) :
  let lg := PlainLogger.set_level (PlainLogger.make name level0 sinks) level in
  (In (s, m') (delivered (PlainLogger.info lg m))
   <-> m' = m /\ s ∈ sinks /\ (level = Info \/ level = Debug \/ level = Trace))
  /\ NoDup (map fst (delivered (PlainLogger.info lg m))).
Proof.
  unfold PlainLogger.info, PlainLogger.emit, PlainLogger.set_level,
    PlainLogger.make, logger_emit; simpl.
  rewrite logger_emit_loop_admitted. split.
  - assert (Hl : at_least_as_critical Info level = true
                 <-> level = Info \/ level = Debug \/ level = Trace)
      by (destruct level; simpl; naive_solver).
    destruct (at_least_as_critical Info level) eqn:El.
    + rewrite delivered_logger_loop_msg, map_fst_fmap, <- list_elem_of_In.
      rewrite list_elem_of_fmap.
      assert (Hs : (exists y, s = y.1 /\ y ∈ map_to_list (ctor_sinks sinks)) <-> s ∈ sinks).
      { split.
        - intros [[k b] [-> Hy]]. apply elem_of_map_to_list in Hy. simpl.
          pose proof (ctor_sinks_lookup sinks k) as Hk.
          rewrite Hy in Hk. by case_bool_decide.
        - intros Hin. exists (s, true). split; [done|].
          apply elem_of_map_to_list.
          pose proof (ctor_sinks_lookup sinks s) as Hk.
          rewrite Hk. by case_bool_decide. }
      rewrite Hs. naive_solver.
    + simpl. split; [done|]. intros (_ & _ & H). apply Hl in H. congruence.
  - destruct (at_least_as_critical Info level); [|constructor].
    rewrite delivered_logger_loop. apply NoDup_fst_map_to_list'.
Qed.

(** *** Locking of the legacy multi-threaded driver *)

(** X11.  Under any schedule, from threads that have not started yet, the
    [ReadLock] count equals the number of threads inside [message], at
    most one thread is inside [set_sink_enabled] under the [WriteLock],
    and never both at once: a flag is never changed while a [message]
    call holds the lock. *)
Theorem X11_write_lock_excludes_readers (ts : list Pc) (sched : list nat)
    (Hstart : Forall (fun pc => at_start pc = true) ts) :
  let s := mt_run sched (mt_init ts) in
  readers s = count_pc in_read (threads s)
  /\ count_pc in_write (threads s) <= 1
  /\ (count_pc in_write (threads s) = 0 \/ count_pc in_read (threads s) = 0).
Proof.
  simpl. destruct (mt_run_inv sched (mt_init ts) (mt_init_inv ts Hstart))
    as (Hr & Hw & Hx).
  split; [exact Hr|]. rewrite Hw.
  destruct (writer (mt_run sched (mt_init ts))); [|lia].
  specialize (Hx eq_refl). lia.
Qed.

(** Witness of X11: an emitter and a thread disabling the sink, with the
    emitter holding the [ReadLock] while the other thread asks for the
    [WriteLock]. *)
Lemma X11_write_lock_excludes_readers_witness :
  Forall (fun pc => at_start pc = true) [EStart "a"; TStart false]
  /\ count_pc in_write (threads (mt_run [0; 1; 0] (mt_init [EStart "a"; TStart false])))
     = 0.
Proof.
  assert (H : Forall (fun pc => at_start pc = true) [EStart "a"; TStart false])
    by (repeat constructor).
  split; [exact H|].
  destruct (X11_write_lock_excludes_readers _ [0; 1; 0] H) as (_ & _ & [Hw | Hr]).
  - exact Hw.
  - vm_compute. reflexivity.
Defined.

(** *** The legacy [OStreamSink] *)

(** X12.  Successive [OStreamSink::message] calls on the same buffer write
    one line per record, in call order, each the rendering followed by a
    newline, and the buffer ends as it started. *)
Theorem X12_ostream_lines_in_order (render : LogRecord -> string) (buffer : string)
    (records : list LogRecord) (stream : list StreamEvent) :
  foldl (fun '(b, st) r => ostream_message render b r st) (buffer, stream) records
  = (buffer, stream ++ map (fun r => StreamWrite (String.append (render r) newline))
                           records).
Proof.
  revert stream. induction records as [|r rs IH]; intros stream; simpl.
  - by rewrite app_nil_r.
  - rewrite ostream_message_eq, IH. by rewrite <- app_assoc.
Qed.

(** *** One record per sink *)

(** X13.  In one call no sink receives more than one record: in the
    rewritten driver (the effective set is a map keyed by sink), in the
    legacy driver and in [Logger::emit]. *)
Theorem X13_one_record_per_sink (level_enabled : nat -> Level -> bool)
    (level : Level) (cb : Producer) (effective_sinks : gmap nat nat)
    (buf : string) (logger_level : Level) (sinks : SinkMap) (m : string) :
  NoDup (map fst (delivered (slim_message level_enabled level cb effective_sinks)))
  /\ NoDup (map fst (delivered (fst (plain_message buf logger_level level cb sinks))))
  /\ NoDup (map fst (delivered (logger_emit logger_level level m sinks))).
Proof.
  split; [|split].
  - unfold slim_message. rewrite slim_loop_events, delivered_emission.
    destruct cb; try constructor; unfold admissible;
      apply NoDup_fst_filter, NoDup_fst_map_to_list'.
  - unfold plain_message. rewrite level_ltb_critical.
    destruct (at_least_as_critical level logger_level); simpl; [|constructor].
    rewrite plain_loop_delivered. unfold enabled_sinks.
    apply NoDup_fst_filter, NoDup_fst_map_to_list'.
  - unfold logger_emit. rewrite logger_emit_loop_admitted.
    destruct (at_least_as_critical level logger_level); [|constructor].
    rewrite delivered_logger_loop. apply NoDup_fst_map_to_list'.
Qed.
